(** * OpenVault: the credential resolution engine

    A shallow embedding of the OpenVault SDK (the [Vault] class) and of the
    service-registry accessors it calls, followed by the properties of the
    resolver that the specification states.

    Conventions of the embedding:
    - a JavaScript string is the list of its UTF-16 code units;
    - [undefined] is [None]; JavaScript truthiness is written out ([truthy]);
    - a [throw] is the [Throw] completion, a normal return is [Normal];
    - the [Map] held by a vault and [process.env] are finite maps over their
      own keys; the registry's JSON objects are association lists in
      insertion order, which is the order [Object.entries] walks them;
    - the registry table ([services.json]), the regular-expression engine,
      [path.join] and the file system are parameters. *)

From stdpp Require Import gmap strings list fin_maps pretty.
From Stdlib Require Import NArith ZArith Lia.

(** ** JavaScript strings and the [String.prototype] methods the code calls *)

Module JS.

Abbreviation jsstring := (list N).

(** A string literal of the source, as code units (ASCII literals only). *)
Definition str (s : string) : jsstring :=
  Ascii.N_of_ascii <$> String.list_ascii_of_string s.

(** [!value] is true for [undefined] and for the empty string. *)
Definition truthy (v : option jsstring) : bool :=
  match v with
  | Some (_ :: _) => true
  | _ => false
  end.

(** [value ?? d] *)
Definition nullish (v : option jsstring) (d : jsstring) : jsstring :=
  match v with
  | Some s => s
  | None => d
  end.

(** A value of type [string | undefined] inside a template literal. *)
Definition template (v : option jsstring) : jsstring :=
  nullish v (str "undefined").

(** ECMAScript WhiteSpace and LineTerminator code points, the ones
    [String.prototype.trim] removes. *)
Definition is_white_space (c : N) : bool :=
  ((9 <=? c) && (c <=? 13) || (c =? 32) || (c =? 160) || (c =? 5760)
   || (8192 <=? c) && (c <=? 8202) || (c =? 8232) || (c =? 8233)
   || (c =? 8239) || (c =? 8287) || (c =? 12288) || (c =? 65279))%N.

Fixpoint trimStart (s : jsstring) : jsstring :=
  match s with
  | c :: s' => if is_white_space c then trimStart s' else s
  | [] => []
  end.

Definition trimEnd (s : jsstring) : jsstring :=
  reverse (trimStart (reverse s)).

Definition trim (s : jsstring) : jsstring := trimEnd (trimStart s).

(** [s.split(sep)] for a separator of one code unit. *)
Fixpoint split (sep : N) (s : jsstring) : list jsstring :=
  match s with
  | [] => [[]]
  | c :: s' =>
      if (c =? sep)%N then [] :: split sep s'
      else match split sep s' with
           | piece :: pieces => (c :: piece) :: pieces
           | [] => [[c]]
           end
  end.

Fixpoint startsWith (s p : jsstring) : bool :=
  match p, s with
  | [], _ => true
  | a :: p', b :: s' => (a =? b)%N && startsWith s' p'
  | _ :: _, [] => false
  end.

Definition endsWith (s p : jsstring) : bool :=
  startsWith (reverse s) (reverse p).

(** [s.indexOf(p)]: the first position where [p] occurs, or [-1]. *)
Fixpoint indexOf_from (i : Z) (s p : jsstring) : Z :=
  if startsWith s p then i
  else match s with
       | [] => (-1)%Z
       | _ :: s' => indexOf_from (i + 1)%Z s' p
       end.

Definition indexOf (s p : jsstring) : Z := indexOf_from 0%Z s p.

(** A relative index of [slice]: negative counts from the end, and the
    result is clamped to the string. *)
Definition clamp (len : Z) (i : Z) : Z :=
  if (i <? 0)%Z then Z.max (len + i) 0 else Z.min i len.

(** [s.slice(start, end)]; [end] omitted is [None]. *)
Definition slice (s : jsstring) (start : Z) (end_ : option Z) : jsstring :=
  let len := Z.of_nat (length s) in
  let from := clamp len start in
  let to := match end_ with Some e => clamp len e | None => len end in
  take (Z.to_nat (to - from)) (drop (Z.to_nat from) s).

(** [s.charCodeAt(i)] for an index inside the string. *)
Definition charCodeAt (s : jsstring) (i : nat) : option N := s !! i.

(** [String(n)] for a natural number. *)
Definition of_nat (n : nat) : jsstring := str (pretty n).

(** [pieces.join(sep)] *)
Fixpoint join (sep : jsstring) (pieces : list jsstring) : jsstring :=
  match pieces with
  | [] => []
  | [p] => p
  | p :: rest => p ++ sep ++ join sep rest
  end.

End JS.

Import JS.

(** ** Completions: a call returns normally or throws *)

Inductive exn : Type :=
  | Error (message : jsstring)
  | SyntaxError (pattern : jsstring).

Inductive completion (A : Type) : Type :=
  | Normal (a : A)
  | Throw (e : exn).

Arguments Normal {A} a.
Arguments Throw {A} e.

(** Plain JSON objects, in insertion order. *)
Module Obj.

Abbreviation t A := (list (jsstring * A)).

(** [o[k]] *)
Fixpoint get {A} (o : t A) (k : jsstring) : option A :=
  match o with
  | [] => None
  | (k', a) :: o' => if decide (k' = k) then Some a else get o' k
  end.

(** [k in o] *)
Definition has {A} (o : t A) (k : jsstring) : bool :=
  bool_decide (is_Some (get o k)).

(** [Object.keys(o)] *)
Definition keys {A} (o : t A) : list jsstring := fst <$> o.


End Obj.

(** ** Node's [path.dirname], POSIX flavour *)

Module Path.

(** The backward scan of [dirname] for the last separator that follows a
    non-separator; the loop runs over [i = path.length - 1 .. 1]. *)
Fixpoint dirname_scan (path : jsstring) (i : nat) (matchedSlash : bool)
  : option nat :=
  match i with
  | 0 => None
  | S i' =>
      if bool_decide (charCodeAt path i = Some 47%N) then
        if negb matchedSlash then Some i
        else dirname_scan path i' matchedSlash
      else dirname_scan path i' false
  end.

Definition dirname (path : jsstring) : jsstring :=
  if (length path =? 0)%nat then str "."
  else
    let hasRoot := bool_decide (charCodeAt path 0 = Some 47%N) in
    match dirname_scan path (length path - 1) true with
    | None => if hasRoot then str "/" else str "."
    | Some end_ =>
        if hasRoot && (end_ =? 1)%nat then str "//"
        else slice path 0 (Some (Z.of_nat end_))
    end.

End Path.

(** ** The registry schema ([registry/types.ts]) *)

Inductive CredentialType : Type :=
  | api_key | api_secret | api_token | bearer_token | bot_token | app_token
  | personal_access_token | access_token | access_token_secret
  | access_key_id | secret_access_key | oauth_client_id | oauth_client_secret
  | oauth_refresh_token | client_id | client_secret | signing_secret
  | webhook_secret | account_id | org_id | project_id | zone_id | region
  | url | service_key | auth_token | phone_number.

Inductive AuthMethod : Type :=
  | auth_api_key | auth_api_key_pair | auth_bearer_token | auth_bot_token
  | auth_oauth1 | auth_oauth2 | auth_personal_access_token | auth_access_key
  | auth_iam_role | auth_sso | auth_api_token | auth_github_app.

Module Credential.
Record t : Type := {
  description : jsstring;
  required : bool;
  type : CredentialType;
  pattern : option jsstring;
  setupUrl : option jsstring;
  setupSteps : option (list jsstring);
  default : option jsstring
}.
End Credential.

Module Service.
Record t : Type := {
  name : jsstring;
  description : jsstring;
  website : option jsstring;
  docs : option jsstring;
  credentials : Obj.t Credential.t;
  authMethods : option (list AuthMethod);
  scopes : option (list jsstring);
  setupSteps : option (list jsstring)
}.
End Service.

Record ServiceRegistry : Type := {
  schema : option jsstring;
  version : jsstring;
  services : Obj.t Service.t
}.

(** [ServiceId] is a union of string literals; at run time it is a string. *)
Abbreviation ServiceId := jsstring.

(** The [RegExp] built-in: the constructor throws [SyntaxError] on a pattern
    that does not compile ([None]); [test] is [RegExp.prototype.test]. *)
Class RegExpEngine : Type := {
  regex : Type;
  RegExp : jsstring → option regex;
  test : regex → jsstring → bool
}.

Record ValidationResult : Type := {
  valid : bool;
  error : option jsstring
}.

Record SetupInstructions : Type := {
  instr_url : option jsstring;
  instr_steps : option (list jsstring)
}.

(** The answer of [validateService]: [{ valid, missing }]. *)
Record ServiceValidation : Type := {
  service_valid : bool;
  service_missing : list jsstring
}.

Record ServiceSummary : Type := {
  summary_id : ServiceId;
  summary_name : jsstring;
  summary_description : jsstring
}.

(** ** The registry accessors ([registry/index.ts]) *)

Section Registry.

Context `{RegExpEngine}.
Variable registry : ServiceRegistry.


Definition getCredentials (serviceId : ServiceId)
  : option (Obj.t Credential.t) :=
  Service.credentials <$> Obj.get (services registry) serviceId.

Definition getCredential (serviceId : ServiceId) (credentialKey : jsstring)
  : option Credential.t :=
  service ← Obj.get (services registry) serviceId;
  Obj.get (Service.credentials service) credentialKey.

Definition getRequiredCredentials (serviceId : ServiceId) : list jsstring :=
  match Obj.get (services registry) serviceId with
  | None => []
  | Some service =>
      fst <$> filter (λ e, Credential.required e.2 = true)
                     (Service.credentials service)
  end.

Definition validateCredential
    (serviceId : ServiceId) (credentialKey value : jsstring)
  : completion ValidationResult :=
  match getCredential serviceId credentialKey with
  | None =>
      Normal {| valid := false;
                error := Some (str "Unknown credential: " ++ credentialKey
                               ++ str " for service: " ++ serviceId) |}
  | Some credential =>
      if negb (truthy (Credential.pattern credential)) then
        Normal {| valid := true; error := None |}
      else
        let pattern := nullish (Credential.pattern credential) [] in
        match RegExp pattern with
        | None => Throw (SyntaxError pattern)
        | Some regex =>
            if negb (test regex value) then
              Normal {| valid := false;
                        error := Some (str "Invalid format for "
                                       ++ credentialKey
                                       ++ str ". Expected pattern: "
                                       ++ pattern) |}
            else Normal {| valid := true; error := None |}
        end
  end.

Definition getSetupInstructions
    (serviceId : ServiceId) (credentialKey : jsstring) : SetupInstructions :=
  let credential := getCredential serviceId credentialKey in
  {| instr_url := credential ≫= Credential.setupUrl;
     instr_steps := credential ≫= Credential.setupSteps |}.

(** The [for ... of Object.entries(registry.services)] loop. *)
Fixpoint findServiceByCredential_loop
    (entries : Obj.t Service.t) (credentialKey : jsstring)
  : option ServiceId :=
  match entries with
  | [] => None
  | (serviceId, service) :: rest =>
      if Obj.has (Service.credentials service) credentialKey
      then Some serviceId
      else findServiceByCredential_loop rest credentialKey
  end.

Definition findServiceByCredential (credentialKey : jsstring)
  : option ServiceId :=
  findServiceByCredential_loop (services registry) credentialKey.

Definition listServices : list ServiceSummary :=
  (λ e, {| summary_id := e.1;
           summary_name := Service.name e.2;
           summary_description := Service.description e.2 |})
    <$> services registry.


End Registry.

(** ** Calls that can write to the console and throw *)

(** The outcome of a call together with the lines it passed to
    [console.warn], oldest first. *)
Definition IO (A : Type) : Type := (completion A * list jsstring)%type.

Definition io_ret {A} (a : A) : IO A := (Normal a, []).

Definition io_bind {A B} (m : IO A) (k : A → IO B) : IO B :=
  match m.1 with
  | Normal a => ((k a).1, m.2 ++ (k a).2)
  | Throw e => (Throw e, m.2)
  end.

Definition throw {A} (e : exn) : IO A := (Throw e, []).

Definition console_warn (line : jsstring) : IO unit := (Normal (), [line]).

Definition lift {A} (c : completion A) : IO A := (c, []).

Notation "'do' x <- m ; k" := (io_bind m (λ x, k))
  (at level 10, x name, m at level 100, k at level 200,
   format "'[v' 'do'  x  <-  m ; '/' k ']'").
Notation "'do_' m ; k" := (io_bind m (λ _, k))
  (at level 10, m at level 100, k at level 200,
   format "'[v' 'do_'  m ; '/' k ']'").

(** ** The SDK ([Vault]) *)

Module VaultOptions.
Record t : Type := {
  envPath : option jsstring;
  throwOnMissing : option bool;
  validate : option bool
}.
End VaultOptions.

(** [Required<VaultOptions>] *)
Module Options.
Record t : Type := {
  envPath : jsstring;
  throwOnMissing : bool;
  validate : bool
}.
End Options.

Record Vault : Type := {
  credentials : gmap jsstring jsstring;
  options : Options.t
}.

(** [fs.existsSync] and [fs.readFileSync(_, 'utf-8')] on the file system as
    it is when the vault is built. *)
Class FileSystem : Type := {
  existsSync : jsstring → bool;
  readFileSync : jsstring → completion jsstring
}.

Definition LF : jsstring := [10%N].
Definition dquote : jsstring := [34%N].
Definition squote : jsstring := [39%N].

Section Vault.

Context `{RegExpEngine} `{FileSystem}.
Variable registry : ServiceRegistry.
(** [path.join] of two segments. *)
Variable path_join : jsstring → jsstring → jsstring.
(** [process.cwd()] *)
Variable cwd : jsstring.

(** The text [get] appends for [instructions.steps]. *)
Definition setup_steps (steps : list jsstring) : jsstring :=
  JS.join LF (imap (λ i s, str "  " ++ of_nat (i + 1) ++ str ". " ++ s) steps).

(** The message of the error [get] throws for a missing credential. *)
Definition not_found_message (key : jsstring) : jsstring :=
  let serviceId := findServiceByCredential registry key in
  if truthy serviceId then
    let instructions :=
      getSetupInstructions registry (nullish serviceId []) key in
    let message := str "Credential not found: " ++ key in
    let message :=
      if truthy (instr_url instructions)
      then message ++ LF ++ LF ++ str "Get it here: "
                   ++ nullish (instr_url instructions) []
      else message in
    let message :=
      match instr_steps instructions with
      | Some steps => message ++ LF ++ LF ++ str "Setup steps:" ++ LF
                              ++ setup_steps steps
      | None => message
      end in
    message
  else str "Credential not found: " ++ key.

(** [get(key)], with [process.env] as it is at the call. *)
Definition get (this : Vault) (env : gmap jsstring jsstring) (key : jsstring)
  : IO jsstring :=
  let value := credentials this !! key in
  let value := if negb (truthy value) then env !! key else value in
  if negb (truthy value) && Options.throwOnMissing (options this) then
    throw (Error (not_found_message key))
  else
    do_ (if truthy value && Options.validate (options this) then
           let serviceId := findServiceByCredential registry key in
           if truthy serviceId then
             do result <- lift (validateCredential registry
                                  (nullish serviceId []) key
                                  (nullish value []));
             if negb (valid result)
             then console_warn (str "Warning: " ++ template (error result))
             else io_ret ()
           else io_ret ()
         else io_ret ());
    io_ret (nullish value []).

Definition getFor (this : Vault) (env : gmap jsstring jsstring)
    (serviceId : ServiceId) (key : jsstring) : IO jsstring :=
  match getCredential registry serviceId key with
  | None =>
      throw (Error (str "Unknown credential " ++ key
                    ++ str " for service " ++ serviceId))
  | Some _ => get this env key
  end.

Definition has (this : Vault) (env : gmap jsstring jsstring) (key : jsstring)
  : bool :=
  bool_decide (is_Some (credentials this !! key))
  || bool_decide (is_Some (env !! key)).

(** The [for (const key of requiredKeys)] loop of [getServiceCredentials];
    [result[key] = ...] appends, the keys of one service being distinct. *)
Fixpoint getServiceCredentials_loop (this : Vault)
    (env : gmap jsstring jsstring) (keys : list jsstring)
    (result : Obj.t jsstring) : IO (Obj.t jsstring) :=
  match keys with
  | [] => io_ret result
  | key :: keys' =>
      do value <- get this env key;
      getServiceCredentials_loop this env keys' (result ++ [(key, value)])
  end.

Definition getServiceCredentials (this : Vault)
    (env : gmap jsstring jsstring) (serviceId : ServiceId)
  : IO (Obj.t jsstring) :=
  getServiceCredentials_loop this env
    (getRequiredCredentials registry serviceId) [].

Definition validateService (this : Vault) (env : gmap jsstring jsstring)
    (serviceId : ServiceId) : ServiceValidation :=
  let requiredKeys := getRequiredCredentials registry serviceId in
  let missing := filter (λ key, has this env key = false) requiredKeys in
  {| service_valid := (length missing =? 0)%nat; service_missing := missing |}.

Definition set (this : Vault) (key value : jsstring) : Vault :=
  {| credentials := <[key := value]> (credentials this);
     options := options this |}.

(** The [while (true)] loop of [findEnvFile], run for at most [fuel]
    iterations; [None] when the iterations are used up. *)
Fixpoint findEnvFile_loop (fuel : nat) (dir : jsstring) : option jsstring :=
  match fuel with
  | 0 => None
  | S fuel' =>
      let envPath := path_join dir (str ".env") in
      if existsSync envPath then Some envPath
      else
        let parent := Path.dirname dir in
        if bool_decide (parent = dir) then Some (path_join cwd (str ".env"))
        else findEnvFile_loop fuel' parent
  end.

(** [findEnvFile()]: [length cwd + 2] iterations are always enough
    (see [findEnvFile_loop_enough]). *)
Definition findEnvFile : option jsstring :=
  findEnvFile_loop (length cwd + 2) cwd.

(** The quote removal of [loadEnv]. *)
Definition unquote (value : jsstring) : jsstring :=
  if (startsWith value dquote && endsWith value dquote)
     || (startsWith value squote && endsWith value squote)
  then slice value 1 (Some (-1)%Z)
  else value.

(** The body of the [for (const line of lines)] loop of [loadEnv]. *)
Definition loadEnv_line (credentials : gmap jsstring jsstring)
    (line : jsstring) : gmap jsstring jsstring :=
  let trimmed := trim line in
  if negb (truthy (Some trimmed)) || startsWith trimmed (str "#")
  then credentials
  else
    let eqIndex := indexOf trimmed (str "=") in
    if (eqIndex =? -1)%Z then credentials
    else
      let key := trim (slice trimmed 0 (Some eqIndex)) in
      let value := trim (slice trimmed (eqIndex + 1) None) in
      let value := unquote value in
      <[key := value]> credentials.

(** What [loadEnv] does with the text of the file. *)
Definition loadEnv_content (credentials : gmap jsstring jsstring)
    (content : jsstring) : gmap jsstring jsstring :=
  foldl loadEnv_line credentials (split 10%N content).

Definition loadEnv (this : Vault) : completion Vault :=
  let envPath := Options.envPath (options this) in
  if negb (existsSync envPath) then Normal this
  else
    match readFileSync envPath with
    | Throw e => Throw e
    | Normal content =>
        Normal {| credentials := loadEnv_content (credentials this) content;
                  options := options this |}
    end.

(** [loadFromEnv] has an empty body. *)
Definition loadFromEnv (this : Vault) : Vault := this.

(** [new Vault(options)]; [None] only if the locator's loop were cut
    short, which [findEnvFile_loop_enough] rules out. *)
Definition Vault_new (o : VaultOptions.t) : option (completion Vault) :=
  envPath ← match VaultOptions.envPath o with
             | Some p => Some p
             | None => findEnvFile
             end;
  let options :=
    {| Options.envPath := envPath;
       Options.throwOnMissing := default true (VaultOptions.throwOnMissing o);
       Options.validate := default true (VaultOptions.validate o) |} in
  Some (match loadEnv {| credentials := ∅; options := options |} with
        | Normal this => Normal (loadFromEnv this)
        | Throw e => Throw e
        end).

End Vault.

(** ** Vocabulary of the properties *)

Section Vocabulary.

Context `{RegExpEngine}.
Variable registry : ServiceRegistry.

(** The value [get] holds after its two lookups and before it decides
    whether the credential is missing. *)
Definition resolved (this : Vault) (env : gmap jsstring jsstring)
    (key : jsstring) : option jsstring :=
  let value := credentials this !! key in
  if negb (truthy value) then env !! key else value.


(** The directory [k] levels above [dir]: [dirname] applied [k] times. *)
Fixpoint ancestor (k : nat) (dir : jsstring) : jsstring :=
  match k with
  | 0 => dir
  | S k' => ancestor k' (Path.dirname dir)
  end.

(** What the parser can store as a key: a trimmed string, free of [=] and
    of line feeds, that does not start with [#]. *)
Definition parsed_key (key : jsstring) : Prop :=
  trim key = key ∧ (61%N ∉ key) ∧ (10%N ∉ key) ∧ head key ≠ Some 35%N.

(** The two errors of the SDK are plain [Error]s told apart by message. *)
Definition CredentialNotFound (key : jsstring) (e : exn) : Prop :=
  ∃ guidance,
    e = Error (str "Credential not found: " ++ key ++ guidance).


(** Every pattern of the registry that [validateCredential] would compile
    is accepted by the [RegExp] constructor. *)
Definition patterns_compile : bool :=
  forallb
    (λ s : jsstring * Service.t,
       forallb
         (λ c : jsstring * Credential.t,
            negb (truthy (Credential.pattern c.2))
            || match RegExp (nullish (Credential.pattern c.2) []) with
               | Some _ => true
               | None => false
               end)
         (Service.credentials s.2))
    (services registry).

End Vocabulary.

(** ** Example data *)

Module Sample.

(** [RegExp] on patterns free of metacharacters: such a pattern matches
    exactly where it occurs in the value. *)
Definition literal_engine : RegExpEngine :=
  {| regex := jsstring;
     RegExp := λ pattern, Some pattern;
     test := λ regex value, bool_decide (0 ≤ indexOf value regex)%Z |}.

Definition credential (description : string) (pattern : option jsstring)
    (setupUrl : option jsstring) (setupSteps : option (list jsstring))
  : Credential.t :=
  {| Credential.description := str description;
     Credential.required := true;
     Credential.type := api_key;
     Credential.pattern := pattern;
     Credential.setupUrl := setupUrl;
     Credential.setupSteps := setupSteps;
     Credential.default := None |}.

Definition service (name : string) (credentials : Obj.t Credential.t)
  : Service.t :=
  {| Service.name := str name;
     Service.description := str name;
     Service.website := None;
     Service.docs := None;
     Service.credentials := credentials;
     Service.authMethods := Some [auth_api_key];
     Service.scopes := None;
     Service.setupSteps := None |}.

(** A registry of two services in the shape of [services.json]; it
    stands in for the bundled table in the examples only. *)
Definition registry : ServiceRegistry :=
  {| schema := None;
     version := str "1.0.0";
     services :=
       [ (str "openai",
          service "OpenAI"
            [ (str "OPENAI_API_KEY",
               credential "API key" (Some (str "sk-"))
                 (Some (str "https://platform.openai.com/api-keys"))
                 (Some [str "Sign in"; str "Create a key"])) ]);
         (str "porkbun",
          service "Porkbun"
            [ (str "PORKBUN_API_KEY",
               credential "API key" None None None);
              (str "PORKBUN_SECRET_KEY",
               credential "Secret key" None None None) ]) ] |}.

Definition strict : Options.t :=
  {| Options.envPath := str "/work/.env";
     Options.throwOnMissing := true;
     Options.validate := true |}.

Definition lenient : Options.t :=
  {| Options.envPath := str "/work/.env";
     Options.throwOnMissing := false;
     Options.validate := true |}.

Definition vault (o : Options.t) (entries : list (string * string)) : Vault :=
  {| credentials := list_to_map (prod_map str str <$> entries);
     options := o |}.

Definition env (entries : list (string * string)) : gmap jsstring jsstring :=
  list_to_map (prod_map str str <$> entries).

(** The file of the round-trip property of the specification. *)
Definition round_trip_file : jsstring :=
  str "K=" ++ dquote ++ str "v" ++ dquote ++ LF
  ++ str "K2=" ++ squote ++ str "v2" ++ squote ++ LF
  ++ str "# comment" ++ LF
  ++ LF
  ++ str "K3=v3".

(** A file system holding one credential file, [/work/.env]. *)
Definition fs : FileSystem :=
  {| existsSync := λ p, bool_decide (p = str "/work/.env");
     readFileSync := λ p,
       if bool_decide (p = str "/work/.env") then Normal round_trip_file
       else Throw (Error (str "ENOENT")) |}.

(** A file system with no file at all. *)
Definition empty_fs : FileSystem :=
  {| existsSync := λ _, false;
     readFileSync := λ _, Throw (Error (str "ENOENT")) |}.

(** [path.join(dir, name)] for a normalised [dir] and a plain [name]. *)
Definition path_join (dir name : jsstring) : jsstring :=
  if bool_decide (dir = str "/") then dir ++ name
  else dir ++ str "/" ++ name.

End Sample.

(** * Properties *)

(** ** Strings *)

Lemma truthy_Some_iff (s : jsstring) : truthy (Some s) = true ↔ s ≠ [].
Proof. destruct s; simpl; split; congruence. Qed.

Lemma truthy_nullish (v : option jsstring) :
  truthy v = true → v = Some (nullish v []).
Proof. destruct v as [[|c s]|]; simpl; congruence. Qed.

Lemma falsy_nullish (v : option jsstring) :
  truthy v = false → nullish v [] = [].
Proof. destruct v as [[|c s]|]; simpl; congruence. Qed.


(** ** The registry accessors *)

Section RegistryFacts.

Context `{RegExpEngine}.
Variable registry : ServiceRegistry.

Lemma Obj_get_elem_of {A} (o : Obj.t A) k a :
  Obj.get o k = Some a → (k, a) ∈ o.
Proof.
  induction o as [|[k' a'] o IH]; simpl; [discriminate|].
  case_decide as Hk.
  - intros [= ->]. subst k'. left.
  - intros Hget. right. auto.
Qed.

Lemma getCredential_elem_of serviceId key credential :
  getCredential registry serviceId key = Some credential →
  ∃ service, (serviceId, service) ∈ services registry
             ∧ (key, credential) ∈ Service.credentials service.
Proof.
  unfold getCredential. intros Hget.
  destruct (Obj.get (services registry) serviceId) as [service|] eqn:Hs;
    simpl in Hget; [|discriminate].
  exists service. split; eauto using Obj_get_elem_of.
Qed.

(** With well-formed patterns the validator always returns. *)
Lemma validateCredential_returns serviceId key value :
  patterns_compile registry = true →
  ∃ result, validateCredential registry serviceId key value = Normal result.
Proof.
  intros Hwf. unfold validateCredential.
  destruct (getCredential registry serviceId key) as [credential|] eqn:Hc;
    [|by eauto].
  destruct (truthy (Credential.pattern credential)) eqn:Hp; simpl;
    [|by eauto].
  apply getCredential_elem_of in Hc as (service & Hs & Hk).
  unfold patterns_compile in Hwf. rewrite forallb_forall in Hwf.
  apply list_elem_of_In, Hwf in Hs. simpl in Hs.
  rewrite forallb_forall in Hs.
  apply list_elem_of_In, Hs in Hk. simpl in Hk. rewrite Hp in Hk.
  simpl in Hk.
  destruct (RegExp (nullish (Credential.pattern credential) []));
    [|discriminate].
  destruct (test _ value); simpl; eauto.
Qed.

End RegistryFacts.

(** ** [get]: the two lookups, the missing case and the validation *)

Section GetFacts.

Context `{RegExpEngine}.
Variable registry : ServiceRegistry.

Implicit Types (this : Vault) (env : gmap jsstring jsstring).
Implicit Types (key value : jsstring).

Lemma not_found_message_prefix key :
  ∃ guidance,
    not_found_message registry key
    = str "Credential not found: " ++ key ++ guidance.
Proof.
  unfold not_found_message.
  destruct (truthy (findServiceByCredential registry key));
    [|exists []; by rewrite app_nil_r].
  set (i := getSetupInstructions registry _ key).
  destruct (truthy (instr_url i)), (instr_steps i) as [steps|];
    try (eexists; rewrite <- ?(assoc_L (++)); reflexivity).
  exists []. by rewrite app_nil_r.
Qed.

Lemma resolved_map_entry this env key value :
  credentials this !! key = Some value → value ≠ [] →
  resolved this env key = Some value.
Proof.
  intros Hmap Hne. unfold resolved. rewrite Hmap.
  apply truthy_Some_iff in Hne. by rewrite Hne.
Qed.

Lemma resolved_falsy_map this env key :
  truthy (credentials this !! key) = false →
  resolved this env key = env !! key.
Proof. intros Hmap. unfold resolved. by rewrite Hmap. Qed.

(** [get] reads the map and the environment only through [resolved]. *)
Lemma get_resolved this env this' env' key :
  options this = options this' →
  resolved this env key = resolved this' env' key →
  get registry this env key = get registry this' env' key.
Proof.
  unfold get, resolved. intros -> Hres. simpl in Hres. by rewrite Hres.
Qed.

Lemma get_missing_strict this env key :
  truthy (resolved this env key) = false →
  Options.throwOnMissing (options this) = true →
  get registry this env key
  = (Throw (Error (not_found_message registry key)), []).
Proof.
  unfold get, resolved. simpl. intros -> ->. reflexivity.
Qed.

Lemma get_missing_lenient this env key :
  truthy (resolved this env key) = false →
  Options.throwOnMissing (options this) = false →
  get registry this env key = (Normal [], []).
Proof.
  unfold get, resolved. simpl. intros Hfalsy ->. rewrite Hfalsy. simpl.
  unfold io_bind, io_ret. simpl. by rewrite (falsy_nullish _ Hfalsy).
Qed.

(** A found value that is not validated is returned silently. *)
Lemma get_found_unvalidated this env key value :
  resolved this env key = Some value → value ≠ [] →
  Options.validate (options this) = false
  ∨ truthy (findServiceByCredential registry key) = false →
  get registry this env key = (Normal value, []).
Proof.
  intros Hres Hne Hskip. apply truthy_Some_iff in Hne.
  unfold get. fold (resolved this env key). rewrite Hres, Hne. simpl.
  destruct Hskip as [-> | ->]; [reflexivity|].
  by destruct (Options.validate (options this)).
Qed.

(** A found value that is validated is returned whatever the validator
    answers; a negative answer leaves one line on the console. *)
Lemma get_found_validated this env key value serviceId result :
  resolved this env key = Some value → value ≠ [] →
  Options.validate (options this) = true →
  findServiceByCredential registry key = Some serviceId →
  serviceId ≠ [] →
  validateCredential registry serviceId key value = Normal result →
  get registry this env key
  = (Normal value,
     if valid result then []
     else [str "Warning: " ++ template (error result)]).
Proof.
  intros Hres Hne Hval Hfind Hsid Hresult.
  apply truthy_Some_iff in Hne. apply truthy_Some_iff in Hsid.
  unfold get. fold (resolved this env key).
  rewrite Hres, Hne, Hval, Hfind, Hsid. simpl. rewrite Hresult.
  unfold io_bind, lift. simpl. by destruct (valid result).
Qed.

(** With well-formed patterns, a found value is always returned. *)
Lemma get_found this env key value :
  patterns_compile registry = true →
  resolved this env key = Some value → value ≠ [] →
  (get registry this env key).1 = Normal value.
Proof.
  intros Hwf Hres Hne.
  destruct (Options.validate (options this)) eqn:Hval;
    [|by rewrite (get_found_unvalidated _ _ _ value); auto].
  destruct (findServiceByCredential registry key) as [serviceId|] eqn:Hf;
    [|by rewrite (get_found_unvalidated _ _ _ value); auto; rewrite Hf; auto].
  destruct (decide (serviceId = [])) as [->|Hsid];
    [by rewrite (get_found_unvalidated _ _ _ value); auto; rewrite Hf; auto|].
  destruct (validateCredential_returns registry serviceId key value Hwf)
    as [result Hresult].
  by rewrite (get_found_validated _ _ _ value serviceId result).
Qed.

Lemma get_after_set this env key value :
  patterns_compile registry = true → value ≠ [] →
  (get registry (set this key value) env key).1 = Normal value.
Proof.
  intros Hwf Hne. apply get_found; [done| |done].
  apply resolved_map_entry; [|done]. simpl. apply lookup_insert_eq.
Qed.

End GetFacts.

(** ** The resolver's contract *)

Section Resolver.

Context `{RegExpEngine}.
Variable registry : ServiceRegistry.

Implicit Types (this : Vault) (env : gmap jsstring jsstring).
Implicit Types (key value : jsstring).

(** A value that is [undefined] or empty after both lookups is handled in
    one way, which depends on [throwOnMissing] alone. *)
Lemma get_falsy this env key :
  truthy (resolved this env key) = false →
  get registry this env key
  = if Options.throwOnMissing (options this)
    then (Throw (Error (not_found_message registry key)), [])
    else (Normal [], []).
Proof.
  intros Hfalsy.
  destruct (Options.throwOnMissing (options this)) eqn:Hthrow;
    auto using get_missing_strict, get_missing_lenient.
Qed.

Lemma has_map_entry this env key value :
  credentials this !! key = Some value → has this env key = true.
Proof.
  intros Hmap. unfold has. rewrite Hmap.
  by rewrite bool_decide_eq_true_2.
Qed.

Lemma not_found_is_CredentialNotFound key :
  CredentialNotFound key (Error (not_found_message registry key)).
Proof.
  destruct (not_found_message_prefix registry key) as [guidance Hmsg].
  exists guidance. by rewrite Hmsg.
Qed.

End Resolver.

(** C1, as amended: for every key that the in-memory map holds with a
    non-empty value, [get] returns that value and its whole outcome is the
    one it has under an empty process environment (the registry's patterns
    being well formed). *)
Theorem get_map_value_non_empty `{RegExpEngine} (registry : ServiceRegistry)
    (this : Vault) (env : gmap jsstring jsstring) (key value : jsstring) :
  patterns_compile registry = true →
  credentials this !! key = Some value →
  value ≠ [] →
  get registry this env key = get registry this ∅ key
  ∧ (get registry this env key).1 = Normal value.
Proof.
  intros Hwf Hmap Hne. split.
  - apply get_resolved; [done|].
    by rewrite !(resolved_map_entry _ _ _ value).
  - apply get_found; [done| |done]. by apply resolved_map_entry.
Qed.

Lemma get_map_value_non_empty_witness :
  let this := Sample.vault Sample.strict [("K", "v")] in
  let env := Sample.env [("K", "other")] in
  @get Sample.literal_engine Sample.registry this env (str "K")
  = @get Sample.literal_engine Sample.registry this ∅ (str "K")
  ∧ (@get Sample.literal_engine Sample.registry this env (str "K")).1
    = Normal (str "v").
Proof.
  intros this env.
  apply (@get_map_value_non_empty Sample.literal_engine Sample.registry
           this env (str "K") (str "v"));
    [reflexivity | reflexivity | discriminate].
Defined.

(** C1 as stated fails: the map holds the empty string for ["K"], the
    environment holds ["from-env"], and [get] returns the latter. *)
Lemma get_map_value_counterexample :
  let this := Sample.vault Sample.strict [("K", "")] in
  let env := Sample.env [("K", "from-env")] in
  credentials this !! str "K" = Some []
  ∧ (@get Sample.literal_engine Sample.registry this env (str "K")).1
    = Normal (str "from-env")
  ∧ (@get Sample.literal_engine Sample.registry this env (str "K")).1
    ≠ Normal [].
Proof. intros this env. repeat split. discriminate. Qed.





(** C7: when the validation that [get] runs on the resolved value answers
    [valid: false], [get] does not throw: it returns the resolved value and
    the only trace of the failure is one warning on the console. *)
Theorem get_invalid_format_not_fatal `{RegExpEngine}
    (registry : ServiceRegistry) (this : Vault)
    (env : gmap jsstring jsstring) (key value : jsstring)
    (serviceId : ServiceId) (result : ValidationResult) :
  resolved this env key = Some value →
  value ≠ [] →
  Options.validate (options this) = true →
  findServiceByCredential registry key = Some serviceId →
  serviceId ≠ [] →
  validateCredential registry serviceId key value = Normal result →
  valid result = false →
  get registry this env key
  = (Normal value, [str "Warning: " ++ template (error result)]).
Proof.
  intros Hres Hne Hval Hfind Hsid Hresult Hinvalid.
  rewrite (get_found_validated registry this env key value serviceId result)
    by done.
  by rewrite Hinvalid.
Qed.

Lemma get_invalid_format_not_fatal_witness :
  let this := Sample.vault Sample.strict [("OPENAI_API_KEY", "zz")] in
  let key := str "OPENAI_API_KEY" in
  @get Sample.literal_engine Sample.registry this ∅ key
  = (Normal (str "zz"),
     [str "Warning: Invalid format for OPENAI_API_KEY. Expected pattern: sk-"]).
Proof.
  intros this key.
  apply (@get_invalid_format_not_fatal Sample.literal_engine Sample.registry
           this ∅ key (str "zz") (str "openai")
           {| valid := false;
              error := Some (str "Invalid format for OPENAI_API_KEY."
                             ++ str " Expected pattern: sk-") |});
    try reflexivity; discriminate.
Defined.

(** C8: after [set("X", "y")], [get("X")] returns ["y"], whatever the map
    held for ["X"] before (from the credential file or an earlier [set]) and
    whatever the process environment holds (the registry's patterns being
    well formed). *)
Theorem get_after_set_X_y `{RegExpEngine} (registry : ServiceRegistry)
    (this : Vault) (env : gmap jsstring jsstring) :
  patterns_compile registry = true →
  (get registry (set this (str "X") (str "y")) env (str "X")).1
  = Normal (str "y").
Proof. intros Hwf. by apply get_after_set. Qed.

Lemma get_after_set_X_y_witness :
  (@get Sample.literal_engine Sample.registry
        (set (Sample.vault Sample.strict [("X", "from-file")])
             (str "X") (str "y"))
        (Sample.env [("X", "from-env")]) (str "X")).1
  = Normal (str "y").
Proof.
  apply (@get_after_set_X_y Sample.literal_engine Sample.registry
           (Sample.vault Sample.strict [("X", "from-file")])
           (Sample.env [("X", "from-env")])).
  reflexivity.
Defined.

(** C10: there is a vault state and a key for which [has] answers true
    while [get] throws the credential-not-found error under
    [throwOnMissing]: a key stored with the empty string. *)
Theorem has_true_get_not_found `{RegExpEngine} (registry : ServiceRegistry) :
  ∃ (this : Vault) (env : gmap jsstring jsstring) (key : jsstring),
    Options.throwOnMissing (options this) = true
    ∧ has this env key = true
    ∧ ∃ e, get registry this env key = (Throw e, [])
           ∧ CredentialNotFound key e.
Proof.
  exists (set (Sample.vault Sample.strict []) (str "K") []), ∅, (str "K").
  split; [reflexivity|]. split.
  - apply (has_map_entry _ _ _ []). apply lookup_insert_eq.
  - exists (Error (not_found_message registry (str "K"))).
    split; [|apply not_found_is_CredentialNotFound].
    apply get_missing_strict; [|reflexivity].
    rewrite resolved_falsy_map; [by rewrite lookup_empty|].
    simpl. by rewrite lookup_insert_eq.
Qed.





(** ** The parser of the credential file *)

Lemma startsWith_unit (value : jsstring) (q : N) :
  startsWith value [q] = true ↔ head value = Some q.
Proof.
  destruct value as [|c rest]; simpl; [by split|].
  replace (startsWith rest []) with true by (by destruct rest).
  rewrite andb_true_r, N.eqb_eq. split; [by intros ->|by intros [= ->]].
Qed.

Lemma endsWith_unit (value : jsstring) (q : N) :
  endsWith value [q] = true ↔ last value = Some q.
Proof.
  unfold endsWith. change (reverse [q]) with [q].
  by rewrite startsWith_unit, head_reverse.
Qed.

Lemma slice_inner (q q' : N) (inner : jsstring) :
  slice (q :: inner ++ [q']) 1 (Some (-1)%Z) = inner.
Proof.
  unfold slice, clamp.
  assert (Hlen : Z.of_nat (length (q :: inner ++ [q']))
                 = (Z.of_nat (length inner) + 2)%Z).
  { simpl. rewrite length_app. simpl. lia. }
  rewrite Hlen.
  change (1 <? 0)%Z with false. change (-1 <? 0)%Z with true. cbv iota.
  replace (Z.to_nat (Z.min 1 (Z.of_nat (length inner) + 2))) with 1 by lia.
  replace (Z.to_nat (Z.max (Z.of_nat (length inner) + 2 + -1) 0
                     - Z.min 1 (Z.of_nat (length inner) + 2)))
    with (length inner) by lia.
  simpl. rewrite drop_0. by rewrite take_app_length.
Qed.

(** A value wrapped in a pair of equal quotes loses that pair, and the text
    between the quotes is kept as it is. *)
Lemma unquote_wrapped (q : N) (inner : jsstring) :
  q = 34%N ∨ q = 39%N → unquote (q :: inner ++ [q]) = inner.
Proof.
  intros Hq. unfold unquote, dquote, squote.
  assert (Hhead : head (q :: inner ++ [q]) = Some q) by done.
  assert (Hlast : last (q :: inner ++ [q]) = Some q).
  { change (q :: inner ++ [q]) with ((q :: inner) ++ [q]). apply last_snoc. }
  destruct Hq as [-> | ->].
  - apply startsWith_unit in Hhead. apply endsWith_unit in Hlast.
    rewrite Hhead, Hlast. simpl. apply slice_inner.
  - apply startsWith_unit in Hhead. apply endsWith_unit in Hlast.
    rewrite Hhead, Hlast. rewrite orb_true_r. apply slice_inner.
Qed.

(** A value that does not both start and end with the same quote is kept. *)
Lemma unquote_unchanged (value : jsstring) :
  (∀ q, q = 34%N ∨ q = 39%N →
        head value ≠ Some q ∨ last value ≠ Some q) →
  unquote value = value.
Proof.
  intros Hno. unfold unquote, dquote, squote.
  assert (Hq : ∀ q, q = 34%N ∨ q = 39%N →
                 startsWith value [q] && endsWith value [q] = false).
  { intros q Hq. apply andb_false_iff.
    destruct (Hno q Hq) as [Hh | Hl]; [left | right];
      apply not_true_is_false.
    - by rewrite startsWith_unit.
    - by rewrite endsWith_unit. }
  by rewrite (Hq 34%N), (Hq 39%N) by auto.
Qed.

(** The round trip of the specification: the five lines parse to exactly
    three entries. *)
Lemma loadEnv_round_trip :
  loadEnv_content ∅ Sample.round_trip_file
  = {[ str "K" := str "v"; str "K2" := str "v2"; str "K3" := str "v3" ]}.
Proof. by vm_compute. Qed.

(** Later lines overwrite earlier ones. *)
Lemma loadEnv_duplicate_key :
  loadEnv_content ∅ (str "A=1" ++ LF ++ str "A=2") = {[ str "A" := str "2" ]}.
Proof. by vm_compute. Qed.

(** C5, where the code departs from it: a raw value that is one quote
    character is not wrapped in a pair of quotes, yet the parser removes
    it; the line made of [K=] and one double quote stores the empty string
    under [K], as the line [K=] does. *)
Theorem loadEnv_lone_quote :
  unquote dquote = []
  ∧ unquote squote = []
  ∧ loadEnv_content ∅ (str "K=" ++ dquote) = {[ str "K" := [] ]}
  ∧ loadEnv_content ∅ (str "K=") = {[ str "K" := [] ]}.
Proof. repeat split; by vm_compute. Qed.

(** ** The locator of the credential file *)

Lemma dirname_scan_range (path : jsstring) (i : nat) (matchedSlash : bool)
    (end_ : nat) :
  Path.dirname_scan path i matchedSlash = Some end_ → 1 ≤ end_ ≤ i.
Proof.
  revert matchedSlash. induction i as [|i IH]; intros b; simpl;
    [discriminate|].
  destruct (bool_decide _); [destruct b; simpl|].
  - intros Hscan. apply IH in Hscan. lia.
  - intros [= <-]. lia.
  - intros Hscan. apply IH in Hscan. lia.
Qed.

(** A scan that starts with [matchedSlash] set ends strictly below the
    position it started from. *)
Lemma dirname_scan_below (path : jsstring) (i end_ : nat) :
  Path.dirname_scan path i true = Some end_ → end_ < i.
Proof.
  induction i as [|i IH]; simpl; [discriminate|].
  destruct (bool_decide _); simpl.
  - intros Hscan. apply IH in Hscan. lia.
  - intros Hscan. apply dirname_scan_range in Hscan. lia.
Qed.

Lemma slice_prefix (s : jsstring) (n : nat) :
  n ≤ length s → slice s 0 (Some (Z.of_nat n)) = take n s.
Proof.
  intros Hn. unfold slice, clamp.
  change (0 <? 0)%Z with false. cbv iota.
  replace (Z.of_nat n <? 0)%Z with false by (symmetry; apply Z.ltb_ge; lia).
  replace (Z.min 0 (Z.of_nat (length s))) with 0%Z by lia.
  replace (Z.to_nat (Z.min (Z.of_nat n) (Z.of_nat (length s)) - 0)) with n
    by lia.
  by rewrite drop_0.
Qed.

(** One step up either stays in place, lands on one of the two fixed points
    of [dirname], or yields a strictly shorter path. *)
Lemma dirname_cases (path : jsstring) :
  Path.dirname path = str "/" ∨ Path.dirname path = str "."
  ∨ length (Path.dirname path) < length path.
Proof.
  unfold Path.dirname.
  destruct (length path =? 0)%nat eqn:Hlen; [by auto|].
  apply Nat.eqb_neq in Hlen.
  destruct (Path.dirname_scan path (length path - 1) true) as [end_|]
    eqn:Hscan.
  - pose proof (dirname_scan_below _ _ _ Hscan) as Hbelow.
    pose proof (dirname_scan_range _ _ _ _ Hscan) as Hrange.
    right. right.
    destruct (bool_decide (charCodeAt path 0 = Some 47%N) && (end_ =? 1))
      eqn:Hroot.
    + apply andb_true_iff in Hroot as [_ Hend].
      apply Nat.eqb_eq in Hend. subst end_.
      change (length (str "//")) with 2. lia.
    + rewrite slice_prefix by lia. rewrite length_take. lia.
  - destruct (bool_decide _); auto.
Qed.

Lemma dirname_root : Path.dirname (str "/") = str "/".
Proof. reflexivity. Qed.

Lemma dirname_dot : Path.dirname (str ".") = str ".".
Proof. reflexivity. Qed.

Lemma ancestor_succ (k : nat) (dir : jsstring) :
  ancestor (S k) dir = Path.dirname (ancestor k dir).
Proof.
  revert dir. induction k as [|k IH]; intros dir; [done|].
  change (ancestor (S (S k)) dir) with (ancestor (S k) (Path.dirname dir)).
  by rewrite IH.
Qed.

Section Locator.

Context `{FileSystem}.
Variable path_join : jsstring → jsstring → jsstring.
Variable cwd : jsstring.

(** More iterations do not change a result already reached. *)
Lemma findEnvFile_loop_mono (fuel fuel' : nat) (dir result : jsstring) :
  findEnvFile_loop path_join cwd fuel dir = Some result → fuel ≤ fuel' →
  findEnvFile_loop path_join cwd fuel' dir = Some result.
Proof.
  revert fuel' dir. induction fuel as [|fuel IH]; intros fuel' dir;
    simpl; [discriminate|].
  intros Hloop Hle. destruct fuel' as [|fuel']; [lia|]. simpl.
  destruct (existsSync _); [done|].
  destruct (bool_decide _); [done|].
  apply IH; [done|lia].
Qed.

(** At a directory that is its own parent one iteration is enough. *)
Lemma findEnvFile_loop_at_root (fuel : nat) (dir : jsstring) :
  Path.dirname dir = dir →
  is_Some (findEnvFile_loop path_join cwd (S fuel) dir).
Proof.
  intros Hroot. simpl. destruct (existsSync _); [by eauto|].
  rewrite bool_decide_eq_true_2 by done. by eauto.
Qed.

(** The loop ends within [length dir + 2] iterations. *)
Lemma findEnvFile_loop_enough (n : nat) (dir : jsstring) :
  length dir ≤ n → is_Some (findEnvFile_loop path_join cwd (n + 2) dir).
Proof.
  revert dir. induction n as [|n IH]; intros dir Hlen.
  - destruct dir; [|simpl in Hlen; lia].
    change (0 + 2) with 2. cbn [findEnvFile_loop].
    destruct (existsSync _); [by eauto|].
    change (Path.dirname []) with (str ".").
    rewrite bool_decide_eq_false_2 by done.
    exact (findEnvFile_loop_at_root 0 (str ".") dirname_dot).
  - replace (S n + 2) with (S (n + 2)) by lia.
    cbn [findEnvFile_loop].
    destruct (existsSync _); [by eauto|].
    case_bool_decide as Hparent; [by eauto|].
    destruct (dirname_cases dir) as [Hd | [Hd | Hd]].
    + rewrite Hd. replace (n + 2) with (S (n + 1)) by lia.
      apply findEnvFile_loop_at_root, dirname_root.
    + rewrite Hd. replace (n + 2) with (S (n + 1)) by lia.
      apply findEnvFile_loop_at_root, dirname_dot.
    + apply IH. lia.
Qed.

(** What a finished loop has seen on its way up from [dir]. *)
Lemma findEnvFile_loop_walk (fuel : nat) (dir result : jsstring) :
  findEnvFile_loop path_join cwd fuel dir = Some result →
  ∃ k, k < fuel
    ∧ (∀ j, j < k →
         existsSync (path_join (ancestor j dir) (str ".env")) = false
         ∧ ancestor (S j) dir ≠ ancestor j dir)
    ∧ (existsSync (path_join (ancestor k dir) (str ".env")) = true
       ∧ result = path_join (ancestor k dir) (str ".env")
       ∨ existsSync (path_join (ancestor k dir) (str ".env")) = false
         ∧ Path.dirname (ancestor k dir) = ancestor k dir
         ∧ result = path_join cwd (str ".env")).
Proof.
  revert dir. induction fuel as [|fuel IH]; intros dir; simpl;
    [discriminate|].
  destruct (existsSync (path_join dir (str ".env"))) eqn:Hexists.
  { intros [= <-]. exists 0. split; [lia|]. split; [intros j; lia|].
    left. by split. }
  case_bool_decide as Hparent.
  { intros [= <-]. exists 0. split; [lia|]. split; [intros j; lia|].
    right. by repeat split. }
  intros Hloop. destruct (IH _ Hloop) as (k & Hk & Hbelow & Hend).
  exists (S k). split; [lia|]. split; [|exact Hend].
  intros [|j] Hj.
  - split; [exact Hexists|exact Hparent].
  - apply (Hbelow j). lia.
Qed.

End Locator.

(** C9: for every working directory and every file system the locator
    terminates, within [length cwd + 2] iterations of its loop.  It climbs
    from the working directory through successive parents, each of them
    without a [.env] and different from its own parent, and stops at the
    first directory that either holds a [.env], whose path it returns, or
    is its own parent, where it returns [path.join(cwd, '.env')]. *)
Theorem findEnvFile_terminates `{FileSystem}
    (path_join : jsstring → jsstring → jsstring) (cwd : jsstring) :
  ∃ result,
    findEnvFile path_join cwd = Some result
    ∧ (∀ fuel, length cwd + 2 ≤ fuel →
         findEnvFile_loop path_join cwd fuel cwd = Some result)
    ∧ ∃ k, k < length cwd + 2
        ∧ (∀ j, j < k →
             existsSync (path_join (ancestor j cwd) (str ".env")) = false
             ∧ ancestor (S j) cwd ≠ ancestor j cwd)
        ∧ (existsSync (path_join (ancestor k cwd) (str ".env")) = true
           ∧ result = path_join (ancestor k cwd) (str ".env")
           ∨ existsSync (path_join (ancestor k cwd) (str ".env")) = false
             ∧ Path.dirname (ancestor k cwd) = ancestor k cwd
             ∧ result = path_join cwd (str ".env")).
Proof.
  destruct (findEnvFile_loop_enough path_join cwd (length cwd) cwd)
    as [result Hresult]; [done|].
  exists result. split; [exact Hresult|]. split.
  - intros fuel Hfuel. by apply (findEnvFile_loop_mono _ _ _ _ _ _ Hresult).
  - by apply findEnvFile_loop_walk.
Qed.

(** From a nested directory of a file system without any [.env], the
    locator returns the default path under the working directory. *)
Lemma findEnvFile_nested_default :
  @findEnvFile Sample.empty_fs Sample.path_join (str "/home/user/skills/x/y")
  = Some (str "/home/user/skills/x/y/.env").
Proof. reflexivity. Qed.

(** With a [.env] two levels up, the locator returns that file. *)
Lemma findEnvFile_nearest :
  @findEnvFile Sample.fs Sample.path_join (str "/work/a/b")
  = Some (str "/work/.env").
Proof. reflexivity. Qed.


(** * Further properties of the code *)

(** ** [trim], [split], [indexOf] and [slice] *)

Lemma trimStart_decompose (s : jsstring) :
  ∃ blank, s = blank ++ trimStart s
           ∧ Forall (λ c, is_white_space c = true) blank.
Proof.
  induction s as [|c s (blank & Hs & Hblank)]; [by exists []|].
  simpl. destruct (is_white_space c) eqn:Hc; [|by exists []].
  exists (c :: blank). split; [by rewrite Hs at 1|by constructor].
Qed.

Lemma trimStart_head (s : jsstring) (c : N) :
  head (trimStart s) = Some c → is_white_space c = false.
Proof.
  induction s as [|c' s IH]; simpl; [discriminate|].
  destruct (is_white_space c') eqn:Hc'; [done|].
  by intros [= <-].
Qed.

Lemma trimStart_fixed (s : jsstring) :
  (∀ c, head s = Some c → is_white_space c = false) → trimStart s = s.
Proof.
  destruct s as [|c s]; [done|]. intros Hhead. simpl.
  by rewrite (Hhead c).
Qed.

Lemma trimEnd_snoc (s : jsstring) (c : N) :
  trimEnd (s ++ [c])
  = if is_white_space c then trimEnd s else s ++ [c].
Proof.
  unfold trimEnd. rewrite reverse_snoc. simpl.
  destruct (is_white_space c); [done|].
  by rewrite <- reverse_snoc, reverse_involutive.
Qed.

Lemma trimEnd_decompose (s : jsstring) :
  ∃ blank, s = trimEnd s ++ blank
           ∧ Forall (λ c, is_white_space c = true) blank.
Proof.
  induction s as [|c s (blank & Hs & Hblank)] using rev_ind; [by exists []|].
  rewrite trimEnd_snoc. destruct (is_white_space c) eqn:Hc.
  - exists (blank ++ [c]). split.
    + rewrite (assoc_L (++)). by rewrite <- Hs.
    + apply Forall_app. split; [done|]. by constructor.
  - exists []. by rewrite app_nil_r.
Qed.

Lemma trimEnd_last (s : jsstring) (c : N) :
  last (trimEnd s) = Some c → is_white_space c = false.
Proof.
  induction s as [|c' s IH] using rev_ind; [discriminate|].
  rewrite trimEnd_snoc. destruct (is_white_space c') eqn:Hc'; [done|].
  rewrite last_snoc. by intros [= <-].
Qed.

Lemma trimEnd_fixed (s : jsstring) :
  (∀ c, last s = Some c → is_white_space c = false) → trimEnd s = s.
Proof.
  destruct s as [|c s _] using rev_ind; [done|]. intros Hlast.
  rewrite trimEnd_snoc. by rewrite (Hlast c) by apply last_snoc.
Qed.

(** [trimEnd] keeps a first character that is not white space. *)
Lemma trimEnd_cons (c : N) (s : jsstring) :
  is_white_space c = false → trimEnd (c :: s) = c :: trimEnd s.
Proof.
  intros Hc. induction s as [|c' s IH] using rev_ind.
  - change [c] with ([] ++ [c]). rewrite trimEnd_snoc. by rewrite Hc.
  - rewrite app_comm_cons, !trimEnd_snoc.
    by destruct (is_white_space c').
Qed.

Lemma trim_head (s : jsstring) (c : N) :
  head (trim s) = Some c → is_white_space c = false.
Proof.
  unfold trim. destruct (trimStart s) as [|c' s'] eqn:Hs; [discriminate|].
  assert (Hc' : is_white_space c' = false).
  { apply (trimStart_head s). by rewrite Hs. }
  rewrite trimEnd_cons by done. by intros [= <-].
Qed.

Lemma trim_last (s : jsstring) (c : N) :
  last (trim s) = Some c → is_white_space c = false.
Proof. apply trimEnd_last. Qed.

Lemma trim_fixed (s : jsstring) :
  (∀ c, head s = Some c → is_white_space c = false) →
  (∀ c, last s = Some c → is_white_space c = false) →
  trim s = s.
Proof.
  intros Hhead Hlast. unfold trim.
  rewrite trimStart_fixed by done. by apply trimEnd_fixed.
Qed.

Lemma trim_idemp (s : jsstring) : trim (trim s) = trim s.
Proof. apply trim_fixed; [apply trim_head|apply trim_last]. Qed.

(** [trim] cuts white space off both ends and nothing else. *)
Lemma trim_decompose (s : jsstring) :
  ∃ before after,
    s = before ++ trim s ++ after
    ∧ Forall (λ c, is_white_space c = true) before
    ∧ Forall (λ c, is_white_space c = true) after.
Proof.
  destruct (trimStart_decompose s) as (before & Hs & Hbefore).
  destruct (trimEnd_decompose (trimStart s)) as (after & Ht & Hafter).
  exists before, after. unfold trim. by rewrite <- Ht.
Qed.

Lemma trim_elem_of (s : jsstring) (c : N) : c ∈ trim s → c ∈ s.
Proof.
  destruct (trim_decompose s) as (before & after & Hs & _).
  intros Hc. rewrite Hs. set_solver.
Qed.

Lemma trim_blank (s : jsstring) :
  Forall (λ c, is_white_space c = true) s → trim s = [].
Proof.
  intros Hblank. destruct (trim s) as [|c t] eqn:Ht; [done|].
  assert (Hc : is_white_space c = false).
  { apply (trim_head s). by rewrite Ht. }
  rewrite Forall_forall in Hblank.
  rewrite (Hblank c) in Hc; [done|]. apply trim_elem_of. rewrite Ht. left.
Qed.

Lemma trim_cons (c : N) (s : jsstring) :
  is_white_space c = false → ∃ rest, trim (c :: s) = c :: rest.
Proof.
  intros Hc. unfold trim. simpl. rewrite Hc.
  rewrite trimEnd_cons by done. eauto.
Qed.

Lemma split_not_nil (sep : N) (s : jsstring) : split sep s ≠ [].
Proof.
  destruct s as [|c s]; simpl; [done|].
  destruct (c =? sep)%N; [done|]. by destruct (split sep s).
Qed.

Lemma split_app (sep : N) (a b : jsstring) :
  split sep (a ++ sep :: b) = split sep a ++ split sep b.
Proof.
  induction a as [|c a IH]; simpl.
  - by rewrite N.eqb_refl.
  - rewrite IH. destruct (c =? sep)%N; [done|].
    pose proof (split_not_nil sep a). by destruct (split sep a).
Qed.

(** No piece of a split holds the separator. *)
Lemma split_pieces (sep : N) (s piece : jsstring) :
  piece ∈ split sep s → sep ∉ piece.
Proof.
  revert piece. induction s as [|c s IH]; intros piece; simpl.
  - intros ->%list_elem_of_singleton. by apply not_elem_of_nil.
  - destruct (c =? sep)%N eqn:Hc.
    + intros [->|Hin]%elem_of_cons; [by apply not_elem_of_nil|by apply IH].
    + apply N.eqb_neq in Hc.
      pose proof (split_not_nil sep s) as Hne.
      destruct (split sep s) as [|first pieces]; [done|].
      intros [->|Hin]%elem_of_cons.
      * intros [?|Hsep]%elem_of_cons; [congruence|].
        by apply (IH first); [left|].
      * apply IH. by right.
Qed.

Lemma indexOf_from_absent (i : Z) (s : jsstring) (c : N) :
  c ∉ s → indexOf_from i s [c] = (-1)%Z.
Proof.
  revert i. induction s as [|c' s IH]; intros i Hc; [done|].
  apply not_elem_of_cons in Hc as [Hne Hc]. cbn [indexOf_from startsWith].
  replace (c =? c')%N with false by (symmetry; by apply N.eqb_neq).
  simpl. by apply IH.
Qed.

Lemma indexOf_from_first (i : Z) (a b : jsstring) (c : N) :
  c ∉ a → indexOf_from i (a ++ c :: b) [c] = (i + Z.of_nat (length a))%Z.
Proof.
  revert i. induction a as [|c' a IH]; intros i Hc.
  - cbn [app indexOf_from startsWith]. rewrite N.eqb_refl.
    replace (startsWith b []) with true by (by destruct b).
    simpl. lia.
  - apply not_elem_of_cons in Hc as [Hne Hc].
    cbn [app indexOf_from startsWith].
    replace (c =? c')%N with false by (symmetry; by apply N.eqb_neq).
    cbn [andb]. rewrite IH by done. simpl length. lia.
Qed.

(** A string either lacks [c] or splits at the first [c]. *)
Lemma first_occurrence (s : jsstring) (c : N) :
  c ∉ s ∨ ∃ a b, s = a ++ c :: b ∧ c ∉ a.
Proof.
  induction s as [|c' s [Hno | (a & b & -> & Ha)]].
  - left. apply not_elem_of_nil.
  - destruct (decide (c = c')) as [<-|Hne].
    + right. exists [], s. split; [done|apply not_elem_of_nil].
    + left. by apply not_elem_of_cons.
  - right. destruct (decide (c = c')) as [<-|Hne].
    + exists [], (a ++ c :: b). split; [done|apply not_elem_of_nil].
    + exists (c' :: a), b. split; [done|]. by apply not_elem_of_cons.
Qed.

Lemma slice_suffix (s : jsstring) (n : nat) :
  n ≤ length s → slice s (Z.of_nat n) None = drop n s.
Proof.
  intros Hn. unfold slice, clamp.
  replace (Z.of_nat n <? 0)%Z with false by (symmetry; apply Z.ltb_ge; lia).
  replace (Z.min (Z.of_nat n) (Z.of_nat (length s))) with (Z.of_nat n)
    by lia.
  rewrite Nat2Z.id. apply take_ge. rewrite length_drop. lia.
Qed.

(** [slice] returns a run of consecutive characters of the string. *)
Lemma slice_elem_of (s : jsstring) (start : Z) (end_ : option Z) (c : N) :
  c ∈ slice s start end_ → c ∈ s.
Proof.
  unfold slice. intros Hc.
  by apply subseteq_take, subseteq_drop in Hc.
Qed.

Lemma unquote_elem_of (value : jsstring) (c : N) :
  c ∈ unquote value → c ∈ value.
Proof.
  unfold unquote. destruct (_ || _); [apply slice_elem_of|done].
Qed.

Lemma trimStart_blank_app (blank s : jsstring) :
  Forall (λ c, is_white_space c = true) blank →
  trimStart (blank ++ s) = trimStart s.
Proof.
  induction 1 as [|c blank Hc _ IH]; [done|]. simpl. by rewrite Hc.
Qed.

Lemma trimEnd_app_blank (s blank : jsstring) :
  Forall (λ c, is_white_space c = true) blank →
  trimEnd (s ++ blank) = trimEnd s.
Proof.
  induction blank as [|c blank IH] using rev_ind; intros Hblank.
  - by rewrite app_nil_r.
  - apply Forall_app in Hblank as [Hblank Hc].
    rewrite Forall_singleton in Hc.
    rewrite (assoc_L (++)), trimEnd_snoc, Hc. by apply IH.
Qed.

(** [trimEnd] does not reach past a character that is not white space. *)
Lemma trimEnd_middle (x y : jsstring) (c : N) :
  is_white_space c = false → trimEnd (x ++ c :: y) = x ++ c :: trimEnd y.
Proof.
  intros Hc. induction y as [|d y IH] using rev_ind.
  - change (x ++ [c]) with (x ++ [c]). rewrite trimEnd_snoc, Hc. done.
  - replace (x ++ c :: y ++ [d]) with ((x ++ c :: y) ++ [d])
      by (by rewrite <- (assoc_L (++))).
    rewrite !trimEnd_snoc, IH.
    destruct (is_white_space d); [done|]. by rewrite <- (assoc_L (++)).
Qed.

(** ** The lines of the credential file *)

(** White space around a line does not matter. *)
Lemma loadEnv_line_trim (m : gmap jsstring jsstring) (line : jsstring) :
  loadEnv_line m (trim line) = loadEnv_line m line.
Proof. unfold loadEnv_line. by rewrite trim_idemp. Qed.

(** A trimmed line that is not a comment is split at its first [=]. *)
Lemma loadEnv_line_assign (m : gmap jsstring jsstring) (a b : jsstring) :
  61%N ∉ a →
  trim (a ++ 61%N :: b) = a ++ 61%N :: b →
  head (a ++ 61%N :: b) ≠ Some 35%N →
  loadEnv_line m (a ++ 61%N :: b) = <[trim a := unquote (trim b)]> m.
Proof.
  intros Ha Htrim Hhead. unfold loadEnv_line. rewrite Htrim.
  replace (truthy (Some (a ++ 61%N :: b))) with true by (by destruct a).
  change (str "#") with [35%N]. change (str "=") with [61%N].
  replace (startsWith (a ++ 61%N :: b) [35%N]) with false.
  2:{ symmetry. apply not_true_is_false. by rewrite startsWith_unit. }
  cbn [negb orb]. unfold indexOf. rewrite indexOf_from_first by done.
  replace (0 + Z.of_nat (length a) =? -1)%Z with false
    by (symmetry; apply Z.eqb_neq; lia).
  rewrite Z.add_0_l, slice_prefix by (rewrite length_app; lia).
  rewrite take_app_length.
  replace (Z.of_nat (length a) + 1)%Z with (Z.of_nat (length a + 1)) by lia.
  rewrite slice_suffix by (rewrite length_app; simpl; lia).
  replace (a ++ 61%N :: b) with ((a ++ [61%N]) ++ b)
    by (by rewrite <- (assoc_L (++))).
  replace (length a + 1) with (length (a ++ [61%N]))
    by (rewrite length_app; simpl; lia).
  by rewrite drop_app_length.
Qed.

(** Every line either leaves the map alone or writes one entry, whose key
    and value are the trimmed texts before and after the first [=]. *)
Lemma loadEnv_line_cases (m : gmap jsstring jsstring) (line : jsstring) :
  loadEnv_line m line = m
  ∨ ∃ a b,
      trim line = a ++ 61%N :: b
      ∧ (61%N ∉ a)
      ∧ head (trim line) ≠ Some 35%N
      ∧ loadEnv_line m line = <[trim a := unquote (trim b)]> m.
Proof.
  rewrite <- (loadEnv_line_trim m line).
  destruct (decide (head (trim line) = Some 35%N)) as [Hcomment|Hhead].
  { left. unfold loadEnv_line. rewrite trim_idemp.
    apply startsWith_unit in Hcomment. change (str "#") with [35%N].
    by rewrite Hcomment, orb_true_r. }
  destruct (first_occurrence (trim line) 61%N) as [Hno | (a & b & Hsplit & Ha)].
  { left. unfold loadEnv_line. rewrite trim_idemp.
    destruct (negb _ || _); [done|].
    unfold indexOf. change (str "=") with [61%N].
    by rewrite indexOf_from_absent. }
  right. exists a, b. split; [done|]. split; [done|]. split; [done|].
  rewrite Hsplit. apply loadEnv_line_assign; [done| |].
  - rewrite <- Hsplit. apply trim_idemp.
  - by rewrite <- Hsplit.
Qed.

(** X1: a line [KEY=value], with any white space around the line, the key
    and the value, stores the value (less one pair of outer quotes) under
    the key; the key is any trimmed text without [=] that does not start
    with [#], the value any trimmed text. *)
Theorem loadEnv_line_assignment (m : gmap jsstring jsstring)
    (p1 p2 p3 p4 key value : jsstring) :
  Forall (λ c, is_white_space c = true) p1 →
  Forall (λ c, is_white_space c = true) p2 →
  Forall (λ c, is_white_space c = true) p3 →
  Forall (λ c, is_white_space c = true) p4 →
  trim key = key →
  trim value = value →
  61%N ∉ key →
  head key ≠ Some 35%N →
  loadEnv_line m (p1 ++ key ++ p2 ++ str "=" ++ p3 ++ value ++ p4)
  = <[key := unquote value]> m.
Proof.
  intros Hp1 Hp2 Hp3 Hp4 Hkey Hvalue Heq Hhash.
  change (str "=") with [61%N]. cbn [app].
  assert (Hkey_head : ∀ c, head key = Some c → is_white_space c = false).
  { intros c. rewrite <- Hkey. apply trim_head. }
  assert (Hkey_last : ∀ c, last key = Some c → is_white_space c = false).
  { intros c. rewrite <- Hkey. apply trim_last. }
  assert (Hvalue_last : ∀ c, last value = Some c → is_white_space c = false).
  { intros c. rewrite <- Hvalue. apply trim_last. }
  (* the text after the sign, once the line is trimmed *)
  set (b := trimEnd (p3 ++ value)).
  assert (Hb : trim b = value).
  { unfold b. destruct value as [|d value' _] using rev_ind.
    - rewrite app_nil_r. change (trimEnd p3) with (trimEnd ([] ++ p3)).
      by rewrite trimEnd_app_blank.
    - rewrite (assoc_L (++)), trimEnd_snoc.
      rewrite (Hvalue_last d) by apply last_snoc.
      rewrite <- (assoc_L (++)). unfold trim.
      by rewrite trimStart_blank_app. }
  (* the text before the sign, once the line is trimmed *)
  assert (∃ a, trim (p1 ++ key ++ p2 ++ 61%N :: p3 ++ value ++ p4)
               = a ++ 61%N :: b
               ∧ trim a = key ∧ (61%N ∉ a)
               ∧ head (a ++ 61%N :: b) ≠ Some 35%N)
    as (a & Hline & Ha & Hno & Hhead).
  { unfold trim at 1. rewrite trimStart_blank_app by done.
    destruct key as [|k key'].
    - exists []. cbn [app]. rewrite trimStart_blank_app by done.
      cbn [trimStart]. change (is_white_space 61) with false. cbv iota.
      rewrite trimEnd_cons by done.
      rewrite (assoc_L (++)), trimEnd_app_blank by done.
      repeat split; [apply not_elem_of_nil|done].
    - exists ((k :: key') ++ p2).
      rewrite trimStart_fixed.
      2:{ intros c. cbn [app head]. intros [= <-]. by apply Hkey_head. }
      rewrite (assoc_L (++)), trimEnd_middle by done.
      rewrite (assoc_L (++) p3), trimEnd_app_blank by done.
      split; [done|]. split; [|split].
      + unfold trim. rewrite trimStart_fixed.
        2:{ intros c. cbn [app head]. intros [= <-]. by apply Hkey_head. }
        rewrite trimEnd_app_blank by done. by apply trimEnd_fixed.
      + intros [Hin|Hin]%elem_of_app; [done|].
        rewrite Forall_forall in Hp2. by specialize (Hp2 _ Hin).
      + cbn [app head]. cbn [head] in Hhash. done. }
  rewrite <- loadEnv_line_trim, Hline.
  rewrite loadEnv_line_assign; [by rewrite Ha, Hb|done| |done].
  rewrite <- Hline. apply trim_idemp.
Qed.

Lemma loadEnv_line_assignment_witness :
  loadEnv_line ∅
    (str "  " ++ str "API_KEY" ++ str " " ++ str "=" ++ str " "
     ++ (dquote ++ str "a b" ++ dquote) ++ [13%N])
  = <[str "API_KEY" := unquote (dquote ++ str "a b" ++ dquote)]> ∅.
Proof.
  apply (loadEnv_line_assignment ∅ (str "  ") (str " ") (str " ") [13%N]
           (str "API_KEY") (dquote ++ str "a b" ++ dquote));
    try (repeat constructor; fail); try reflexivity.
  - by apply (bool_decide_unpack _).
  - discriminate.
Defined.

(** X2: blank lines, lines whose first visible character is [#] and lines
    without [=] leave the credentials as they are. *)
Theorem loadEnv_line_skips (m : gmap jsstring jsstring) (line : jsstring) :
  (Forall (λ c, is_white_space c = true) line → loadEnv_line m line = m)
  ∧ (∀ blank rest,
       Forall (λ c, is_white_space c = true) blank →
       line = blank ++ 35%N :: rest →
       loadEnv_line m line = m)
  ∧ (61%N ∉ line → loadEnv_line m line = m).
Proof.
  split; [|split].
  - intros Hblank. unfold loadEnv_line. by rewrite trim_blank.
  - intros blank rest Hblank ->. unfold loadEnv_line, trim.
    rewrite trimStart_blank_app by done. cbn [trimStart].
    change (is_white_space 35) with false. cbv iota.
    rewrite trimEnd_cons by done. change (str "#") with [35%N].
    cbn [startsWith]. rewrite N.eqb_refl.
    replace (startsWith (trimEnd rest) []) with true
      by (by destruct (trimEnd rest)).
    by rewrite orb_true_r.
  - intros Hno. unfold loadEnv_line. destruct (negb _ || _); [done|].
    unfold indexOf. change (str "=") with [61%N].
    rewrite indexOf_from_absent; [done|].
    intros Hin. by apply Hno, trim_elem_of.
Qed.

Lemma loadEnv_line_skips_witness :
  let m : gmap jsstring jsstring := {[ str "K" := str "v" ]} in
  loadEnv_line m (str "   ") = m
  ∧ loadEnv_line m (str "  # K=other") = m
  ∧ loadEnv_line m (str "export K") = m.
Proof.
  intros m. split; [|split].
  - apply (proj1 (loadEnv_line_skips m (str "   "))).
    repeat constructor.
  - apply (proj1 (proj2 (loadEnv_line_skips m (str "  # K=other")))
             (str "  ") (str " K=other"));
      [repeat constructor|reflexivity].
  - apply (proj2 (proj2 (loadEnv_line_skips m (str "export K")))).
    by apply (bool_decide_unpack _).
Defined.

(** X3: loading a file made of two parts joined by a line feed is loading
    the first part and then the second into the result. *)
Theorem loadEnv_content_app (m : gmap jsstring jsstring) (a b : jsstring) :
  loadEnv_content m (a ++ LF ++ b)
  = loadEnv_content (loadEnv_content m a) b.
Proof.
  unfold loadEnv_content, LF. cbn [app].
  by rewrite split_app, foldl_app.
Qed.

Lemma split_whole (sep : N) (s : jsstring) :
  sep ∉ s → split sep s = [s].
Proof.
  induction s as [|c s IH]; [done|].
  intros [Hne Hs]%not_elem_of_cons. simpl.
  replace (c =? sep)%N with false by (symmetry; apply N.eqb_neq; congruence).
  by rewrite IH.
Qed.

(** X4: the last line of a file decides the value of its key, whatever the
    lines before it stored. *)
Theorem loadEnv_last_line_wins (m : gmap jsstring jsstring)
    (before key value : jsstring) :
  trim key = key →
  trim value = value →
  61%N ∉ key →
  head key ≠ Some 35%N →
  10%N ∉ key →
  10%N ∉ value →
  loadEnv_content m (before ++ LF ++ key ++ str "=" ++ value) !! key
  = Some (unquote value).
Proof.
  intros Hkey Hvalue Heq Hhash Hkey_lf Hvalue_lf.
  change (str "=") with [61%N]. unfold loadEnv_content, LF. cbn [app].
  rewrite split_app, foldl_app, (split_whole _ (key ++ 61%N :: value)).
  2:{ intros [?|[?|?]%elem_of_cons]%elem_of_app; done. }
  cbn [foldl]. rewrite loadEnv_line_assign; [|done| |].
  - rewrite Hkey, Hvalue. apply lookup_insert_eq.
  - apply trim_fixed; intros c.
    + destruct key as [|k key']; cbn [app head]; intros [= <-]; [done|].
      apply (trim_head (k :: key')). by rewrite Hkey.
    + destruct value as [|d value' _] using rev_ind.
      * rewrite last_snoc. by intros [= <-].
      * replace (key ++ 61%N :: value' ++ [d])
          with ((key ++ 61%N :: value') ++ [d])
          by (by rewrite <- (assoc_L (++))).
        rewrite last_snoc. intros [= <-].
        apply (trim_last (value' ++ [d])). rewrite Hvalue. apply last_snoc.
  - destruct key as [|k key']; [done|]. cbn [app head].
    by cbn [head] in Hhash.
Qed.

Lemma loadEnv_last_line_wins_witness :
  loadEnv_content ∅ (str "A=1" ++ LF ++ str "A" ++ str "=" ++ str "2")
  !! str "A"
  = Some (unquote (str "2")).
Proof.
  apply (loadEnv_last_line_wins ∅ (str "A=1") (str "A") (str "2"));
    try reflexivity; try discriminate; by apply (bool_decide_unpack _).
Defined.

Lemma loadEnv_line_entries (m : gmap jsstring jsstring) (line : jsstring) :
  10%N ∉ line →
  (∀ k v, m !! k = Some v → parsed_key k ∧ 10%N ∉ v) →
  ∀ k v, loadEnv_line m line !! k = Some v → parsed_key k ∧ 10%N ∉ v.
Proof.
  intros Hline Hm k v.
  destruct (loadEnv_line_cases m line)
    as [-> | (a & b & Hsplit & Ha & Hhead & ->)]; [by apply Hm|].
  assert (Hsub : ∀ c, c ∈ a ++ 61%N :: b → c ∈ line).
  { intros c. rewrite <- Hsplit. apply trim_elem_of. }
  rewrite lookup_insert. case_decide as Hk; [|by apply Hm].
  intros [= <-]. subst k. split; [split; [|split; [|split]]|].
  - apply trim_idemp.
  - intros Hin. by apply Ha, trim_elem_of.
  - intros Hin. apply Hline, Hsub, elem_of_app. left.
    by apply trim_elem_of.
  - destruct a as [|c a']; [done|].
    rewrite Hsplit in Hhead. cbn [app head] in Hhead.
    destruct (trim_cons c a') as [rest ->]; [|done].
    apply (trim_head line). by rewrite Hsplit.
  - intros Hin. apply Hline, Hsub, elem_of_app. right. right.
    by apply trim_elem_of, unquote_elem_of.
Qed.

(** X5: whatever the text of the file, every key the parser stores is
    trimmed, holds no [=] and no line feed and does not start with [#], and
    no stored value holds a line feed. *)
Theorem loadEnv_content_entries (content key value : jsstring) :
  loadEnv_content ∅ content !! key = Some value →
  parsed_key key ∧ 10%N ∉ value.
Proof.
  unfold loadEnv_content.
  assert (Hlines : ∀ line, line ∈ split 10%N content → 10%N ∉ line)
    by apply split_pieces.
  assert (Hempty : ∀ k v, (∅ : gmap jsstring jsstring) !! k = Some v →
                          parsed_key k ∧ 10%N ∉ v)
    by (intros k v; by rewrite lookup_empty).
  revert Hlines Hempty key value.
  generalize (∅ : gmap jsstring jsstring) as m.
  induction (split 10%N content) as [|line lines IH]; intros m Hlines Hm;
    [done|].
  cbn [foldl]. apply IH.
  - intros l Hl. apply Hlines. by right.
  - apply loadEnv_line_entries; [|done]. apply Hlines. left.
Qed.

Lemma loadEnv_content_entries_witness :
  parsed_key (str "K2") ∧ 10%N ∉ str "v2".
Proof.
  apply (loadEnv_content_entries Sample.round_trip_file (str "K2") (str "v2")).
  reflexivity.
Defined.

(** ** The registry accessors, continued *)

Section RegistryLookups.

Context `{RegExpEngine}.
Variable registry : ServiceRegistry.

Lemma Obj_get_is_Some {A} (o : Obj.t A) (k : jsstring) :
  is_Some (Obj.get o k) ↔ k ∈ Obj.keys o.
Proof.
  unfold Obj.keys. induction o as [|[k' a] o IH]; simpl.
  - split; [by intros [? ?]|by intros ?%not_elem_of_nil].
  - case_decide as Hk.
    + subst k'. split; [intros _; left|by eauto].
    + rewrite IH. split; [by right|].
      by intros [?|?]%elem_of_cons.
Qed.


Lemma getRequiredCredentials_defined (serviceId : ServiceId)
    (key : jsstring) :
  key ∈ getRequiredCredentials registry serviceId →
  is_Some (getCredential registry serviceId key).
Proof.
  unfold getRequiredCredentials, getCredential.
  destruct (Obj.get (services registry) serviceId) as [service|]; simpl;
    [|by intros ?%not_elem_of_nil].
  intros Hin. apply Obj_get_is_Some. unfold Obj.keys.
  apply list_elem_of_fmap in Hin as (e & -> & He).
  apply list_elem_of_filter in He as [_ He].
  by apply list_elem_of_fmap_2.
Qed.

End RegistryLookups.



(** X8: [getFor] accepts every required key of its service: for such a key
    it is [get]. *)
Theorem getFor_required_key `{RegExpEngine} (registry : ServiceRegistry)
    (this : Vault) (env : gmap jsstring jsstring)
    (serviceId : ServiceId) (key : jsstring) :
  key ∈ getRequiredCredentials registry serviceId →
  getFor registry this env serviceId key = get registry this env key.
Proof.
  intros [credential Hc]%getRequiredCredentials_defined.
  unfold getFor. by rewrite Hc.
Qed.

Lemma getFor_required_key_witness :
  let this := Sample.vault Sample.strict [("PORKBUN_SECRET_KEY", "s3")] in
  @getFor Sample.literal_engine Sample.registry this ∅
          (str "porkbun") (str "PORKBUN_SECRET_KEY")
  = @get Sample.literal_engine Sample.registry this ∅
         (str "PORKBUN_SECRET_KEY").
Proof.
  intros this.
  apply (@getFor_required_key Sample.literal_engine Sample.registry this ∅
           (str "porkbun") (str "PORKBUN_SECRET_KEY")).
  by apply (bool_decide_unpack _).
Defined.

(** ** The resolver, continued *)

Section ResolverFacts.

Context `{RegExpEngine}.
Variable registry : ServiceRegistry.

(** The validator throws nothing but the [SyntaxError] of [RegExp]. *)
Lemma validateCredential_throws (serviceId : ServiceId)
    (key value : jsstring) (e : exn) :
  validateCredential registry serviceId key value = Throw e →
  ∃ pattern, e = SyntaxError pattern ∧ RegExp pattern = None.
Proof.
  unfold validateCredential.
  destruct (getCredential registry serviceId key) as [credential|];
    [|discriminate].
  destruct (truthy (Credential.pattern credential)); simpl; [|discriminate].
  destruct (RegExp _) as [regex|] eqn:Hcompile.
  - by destruct (test regex value).
  - intros [= <-]. by eauto.
Qed.

Implicit Types (this : Vault) (env : gmap jsstring jsstring).
Implicit Types (key value : jsstring).

(** The shape of every outcome of [get] on a value that was found. *)
Lemma get_found_cases this env key :
  truthy (resolved this env key) = true →
  (∃ line,
     get registry this env key
     = (Normal (nullish (resolved this env key) []), line)
     ∧ length line ≤ 1
     ∧ (Options.validate (options this) = false → line = []))
  ∨ (∃ pattern,
       get registry this env key = (Throw (SyntaxError pattern), [])
       ∧ Options.validate (options this) = true
       ∧ RegExp pattern = None).
Proof.
  intros Htruthy.
  pose proof (truthy_nullish _ Htruthy) as Hres.
  assert (Hne : nullish (resolved this env key) [] ≠ []).
  { apply truthy_Some_iff. by rewrite <- Hres. }
  destruct (Options.validate (options this)) eqn:Hval.
  2:{ left. exists []. by rewrite (get_found_unvalidated _ _ _ _ _ Hres); auto. }
  destruct (findServiceByCredential registry key) as [serviceId|] eqn:Hf.
  2:{ left. exists [].
      rewrite (get_found_unvalidated _ _ _ _ _ Hres); auto.
      right. by rewrite Hf. }
  destruct (decide (serviceId = [])) as [->|Hsid].
  { left. exists [].
    rewrite (get_found_unvalidated _ _ _ _ _ Hres); auto.
    right. by rewrite Hf. }
  pose proof (validateCredential_throws serviceId key
                (nullish (resolved this env key) [])) as Hout.
  destruct (validateCredential registry serviceId key
              (nullish (resolved this env key) [])) as [result|e] eqn:Hv.
  - left. eexists.
    rewrite (get_found_validated _ _ _ _ _ serviceId result Hres); try done.
    split; [done|]. split; [|done]. destruct (valid result); simpl; lia.
  - right. destruct (Hout e eq_refl) as (pattern & -> & Hcompile).
    exists pattern.
    split; [|done].
    apply truthy_Some_iff in Hne. apply truthy_Some_iff in Hsid.
    unfold get. fold (resolved this env key).
    rewrite Htruthy, Hval, Hf, Hsid. simpl. rewrite Hv. reflexivity.
Qed.

Lemma has_false_resolved this env key :
  has this env key = false → resolved this env key = None.
Proof.
  unfold has, resolved. intros [Hmap Henv]%orb_false_iff.
  apply bool_decide_eq_false in Hmap. apply bool_decide_eq_false in Henv.
  destruct (credentials this !! key); [by exfalso; eauto|].
  destruct (env !! key); [by exfalso; eauto|done].
Qed.

End ResolverFacts.

(** X9: under [throwOnMissing], [get] never returns the empty string. *)
Theorem get_strict_never_empty `{RegExpEngine} (registry : ServiceRegistry)
    (this : Vault) (env : gmap jsstring jsstring) (key value : jsstring) :
  Options.throwOnMissing (options this) = true →
  (get registry this env key).1 = Normal value →
  value ≠ [].
Proof.
  intros Hstrict Hget.
  destruct (truthy (resolved this env key)) eqn:Htruthy.
  - destruct (get_found_cases registry this env key Htruthy)
      as [(line & Hg & _) | (pattern & Hg & _)];
      rewrite Hg in Hget; [|discriminate].
    injection Hget as <-. apply truthy_Some_iff.
    by rewrite <- truthy_nullish.
  - by rewrite get_missing_strict in Hget.
Qed.

Lemma get_strict_never_empty_witness : str "v" ≠ [].
Proof.
  apply (@get_strict_never_empty Sample.literal_engine Sample.registry
           (Sample.vault Sample.strict [("K", "v")]) ∅ (str "K") (str "v"));
    reflexivity.
Defined.



(** X11: with [validate] off, [get] writes nothing to the console and does
    not depend on the regular-expression engine. *)
Theorem get_unvalidated (E1 E2 : RegExpEngine) (registry : ServiceRegistry)
    (this : Vault) (env : gmap jsstring jsstring) (key : jsstring) :
  Options.validate (options this) = false →
  (@get E1 registry this env key).2 = []
  ∧ @get E1 registry this env key = @get E2 registry this env key.
Proof.
  intros Hval. unfold get. rewrite Hval, andb_false_r.
  by destruct (negb _ && _).
Qed.

Lemma get_unvalidated_witness :
  let quiet := {| Options.envPath := str "/work/.env";
                  Options.throwOnMissing := true;
                  Options.validate := false |} in
  let rejecting := {| regex := unit; RegExp := λ _, None;
                      test := λ _ _, false |} in
  let this := Sample.vault quiet [("OPENAI_API_KEY", "zz")] in
  (@get Sample.literal_engine Sample.registry this ∅
        (str "OPENAI_API_KEY")).2 = []
  ∧ @get Sample.literal_engine Sample.registry this ∅ (str "OPENAI_API_KEY")
    = @get rejecting Sample.registry this ∅ (str "OPENAI_API_KEY").
Proof.
  intros quiet rejecting this.
  apply (get_unvalidated Sample.literal_engine rejecting Sample.registry
           this ∅ (str "OPENAI_API_KEY")).
  reflexivity.
Defined.

(** X12: one call of [get] writes at most one line to the console, and
    none when it throws. *)
Theorem get_console `{RegExpEngine} (registry : ServiceRegistry)
    (this : Vault) (env : gmap jsstring jsstring) (key : jsstring) :
  length (get registry this env key).2 ≤ 1
  ∧ ∀ e, (get registry this env key).1 = Throw e →
         (get registry this env key).2 = [].
Proof.
  destruct (truthy (resolved this env key)) eqn:Htruthy.
  - destruct (get_found_cases registry this env key Htruthy)
      as [(line & -> & Hline & _) | (pattern & -> & _)]; simpl.
    + split; [done|]. discriminate.
    + split; [lia|done].
  - rewrite get_falsy by done.
    destruct (Options.throwOnMissing (options this)); simpl;
      (split; [lia|done]).
Qed.

(** X13: when the map holds nothing or the empty string for a key, [get]
    returns the non-empty value that the process environment holds for it
    (the registry's patterns being well formed). *)
Theorem get_env_fallback `{RegExpEngine} (registry : ServiceRegistry)
    (this : Vault) (env : gmap jsstring jsstring) (key value : jsstring) :
  patterns_compile registry = true →
  truthy (credentials this !! key) = false →
  env !! key = Some value →
  value ≠ [] →
  (get registry this env key).1 = Normal value.
Proof.
  intros Hwf Hmap Henv Hne. apply get_found; [done| |done].
  by rewrite resolved_falsy_map.
Qed.

Lemma get_env_fallback_witness :
  (@get Sample.literal_engine Sample.registry
        (Sample.vault Sample.strict []) (Sample.env [("TOKEN", "t0")])
        (str "TOKEN")).1
  = Normal (str "t0").
Proof.
  apply (@get_env_fallback Sample.literal_engine Sample.registry
           (Sample.vault Sample.strict []) (Sample.env [("TOKEN", "t0")])
           (str "TOKEN") (str "t0"));
    try reflexivity; discriminate.
Defined.

(** X14: [set] touches one key: for every other key [get] and [has] answer
    as before, and the options are kept. *)
Theorem set_other_key `{RegExpEngine} (registry : ServiceRegistry)
    (this : Vault) (env : gmap jsstring jsstring)
    (key value other : jsstring) :
  other ≠ key →
  get registry (set this key value) env other = get registry this env other
  ∧ has (set this key value) env other = has this env other
  ∧ options (set this key value) = options this.
Proof.
  intros Hne. split; [|split; [|done]].
  - apply get_resolved; [done|]. unfold resolved. simpl.
    by rewrite lookup_insert_ne.
  - unfold has. simpl. by rewrite lookup_insert_ne.
Qed.

Lemma set_other_key_witness :
  let this := Sample.vault Sample.strict [("A", "1"); ("B", "2")] in
  @get Sample.literal_engine Sample.registry
       (set this (str "A") (str "9")) ∅ (str "B")
  = @get Sample.literal_engine Sample.registry this ∅ (str "B")
  ∧ has (set this (str "A") (str "9")) ∅ (str "B") = has this ∅ (str "B")
  ∧ options (set this (str "A") (str "9")) = options this.
Proof.
  intros this.
  apply (@set_other_key Sample.literal_engine Sample.registry this ∅
           (str "A") (str "9") (str "B")).
  discriminate.
Defined.

(** X15: a key for which [get] returns a non-empty value is a key that
    [has] reports. *)
Theorem get_value_has `{RegExpEngine} (registry : ServiceRegistry)
    (this : Vault) (env : gmap jsstring jsstring) (key value : jsstring) :
  (get registry this env key).1 = Normal value →
  value ≠ [] →
  has this env key = true.
Proof.
  intros Hget Hne.
  destruct (has this env key) eqn:Hhas; [done|exfalso].
  apply (has_false_resolved this env key) in Hhas.
  assert (Hfalsy : truthy (resolved this env key) = false)
    by (by rewrite Hhas).
  rewrite (get_falsy registry this env key Hfalsy) in Hget.
  destruct (Options.throwOnMissing (options this)); simpl in Hget;
    [discriminate|]. by injection Hget as <-.
Qed.

Lemma get_value_has_witness :
  has (Sample.vault Sample.lenient []) (Sample.env [("TOKEN", "t0")])
      (str "TOKEN") = true.
Proof.
  apply (@get_value_has Sample.literal_engine Sample.registry
           (Sample.vault Sample.lenient []) (Sample.env [("TOKEN", "t0")])
           (str "TOKEN") (str "t0"));
    [reflexivity|discriminate].
Defined.

(** ** Whole services *)

Section ServiceFacts.

Context `{RegExpEngine}.
Variable registry : ServiceRegistry.

Implicit Types (this : Vault) (env : gmap jsstring jsstring).



(** The loop throws as soon as one [get] throws. *)
Lemma getServiceCredentials_loop_throws this env
    (keys : list jsstring) (result : Obj.t jsstring) (key : jsstring) :
  key ∈ keys →
  (∃ e, (get registry this env key).1 = Throw e) →
  ∃ e, (getServiceCredentials_loop registry this env keys result).1
       = Throw e.
Proof.
  revert result. induction keys as [|first keys IH]; intros result Hin Hthrow;
    [by apply not_elem_of_nil in Hin|].
  cbn [getServiceCredentials_loop]. unfold io_bind at 1.
  destruct (get registry this env first).1 as [value|e] eqn:Hfirst;
    [|by eauto].
  cbn [fst]. apply IH; [|done].
  apply elem_of_cons in Hin as [->|Hin]; [|done].
  destruct Hthrow as [e He]. congruence.
Qed.

Lemma validateService_missing_elem this env (serviceId : ServiceId)
    (key : jsstring) :
  key ∈ service_missing (validateService registry this env serviceId)
  ↔ key ∈ getRequiredCredentials registry serviceId
    ∧ has this env key = false.
Proof.
  unfold validateService. simpl. rewrite list_elem_of_filter. tauto.
Qed.

End ServiceFacts.




(** X18: under [throwOnMissing], one required key without a non-empty
    value makes [getServiceCredentials] throw: there is no partial
    result. *)
Theorem getServiceCredentials_all_or_nothing `{RegExpEngine}
    (registry : ServiceRegistry) (this : Vault)
    (env : gmap jsstring jsstring) (serviceId : ServiceId)
    (key : jsstring) :
  Options.throwOnMissing (options this) = true →
  key ∈ getRequiredCredentials registry serviceId →
  truthy (resolved this env key) = false →
  ∃ e, (getServiceCredentials registry this env serviceId).1 = Throw e.
Proof.
  intros Hstrict Hkey Hfalsy. unfold getServiceCredentials.
  apply (getServiceCredentials_loop_throws _ _ _ _ _ key Hkey).
  rewrite get_missing_strict by done. by eauto.
Qed.

Lemma getServiceCredentials_all_or_nothing_witness :
  ∃ e,
    (@getServiceCredentials Sample.literal_engine Sample.registry
       (Sample.vault Sample.strict [("PORKBUN_API_KEY", "pk1")])
       ∅ (str "porkbun")).1
    = Throw e.
Proof.
  apply (@getServiceCredentials_all_or_nothing Sample.literal_engine
           Sample.registry
           (Sample.vault Sample.strict [("PORKBUN_API_KEY", "pk1")])
           ∅ (str "porkbun") (str "PORKBUN_SECRET_KEY"));
    [reflexivity | by apply (bool_decide_unpack _) | reflexivity].
Defined.

(** X19: when [validateService] answers [valid: false] and
    [throwOnMissing] is on, [getServiceCredentials] throws. *)
Theorem validateService_invalid_fetch_throws `{RegExpEngine}
    (registry : ServiceRegistry) (this : Vault)
    (env : gmap jsstring jsstring) (serviceId : ServiceId) :
  Options.throwOnMissing (options this) = true →
  service_valid (validateService registry this env serviceId) = false →
  ∃ e, (getServiceCredentials registry this env serviceId).1 = Throw e.
Proof.
  intros Hstrict Hinvalid.
  destruct (service_missing (validateService registry this env serviceId))
    as [|key rest] eqn:Hmissing.
  { unfold validateService in *. simpl in *. by rewrite Hmissing in Hinvalid. }
  assert (Hkey : key ∈ service_missing
                         (validateService registry this env serviceId))
    by (rewrite Hmissing; left).
  apply validateService_missing_elem in Hkey as [Hkey Hhas].
  unfold getServiceCredentials.
  apply (getServiceCredentials_loop_throws _ _ _ _ _ key Hkey).
  rewrite get_missing_strict; [by eauto| |done].
  by rewrite has_false_resolved.
Qed.

Lemma validateService_invalid_fetch_throws_witness :
  ∃ e,
    (@getServiceCredentials Sample.literal_engine Sample.registry
       (Sample.vault Sample.strict [("PORKBUN_API_KEY", "pk1")])
       ∅ (str "porkbun")).1
    = Throw e.
Proof.
  apply (@validateService_invalid_fetch_throws Sample.literal_engine
           Sample.registry
           (Sample.vault Sample.strict [("PORKBUN_API_KEY", "pk1")])
           ∅ (str "porkbun"));
    reflexivity.
Defined.



(** ** Building a vault *)

Section Construction.

Context `{FileSystem}.
Variable path_join : jsstring → jsstring → jsstring.
Variable cwd : jsstring.



End Construction.




(** X23: a non-empty value that the parser reads for a key from the file
    at [envPath] is what [get] returns for that key on the vault built from
    it, whatever the process environment holds (the registry's patterns
    being well formed). *)
Theorem Vault_new_get `{RegExpEngine} `{FileSystem}
    (registry : ServiceRegistry)
    (path_join : jsstring → jsstring → jsstring) (cwd : jsstring)
    (o : VaultOptions.t) (env : gmap jsstring jsstring)
    (path content key value : jsstring) :
  patterns_compile registry = true →
  VaultOptions.envPath o = Some path →
  existsSync path = true →
  readFileSync path = Normal content →
  loadEnv_content ∅ content !! key = Some value →
  value ≠ [] →
  ∃ this,
    Vault_new path_join cwd o = Some (Normal this)
    ∧ (get registry this env key).1 = Normal value.
Proof.
  intros Hwf Hpath Hexists Hread Hparsed Hne.
  unfold Vault_new. rewrite Hpath. simpl. unfold loadEnv. simpl.
  rewrite Hexists, Hread. simpl. eexists. split; [reflexivity|].
  apply get_found; [done| |done]. by apply resolved_map_entry.
Qed.

Lemma Vault_new_get_witness :
  ∃ this,
    @Vault_new Sample.fs Sample.path_join (str "/elsewhere")
      {| VaultOptions.envPath := Some (str "/work/.env");
         VaultOptions.throwOnMissing := None;
         VaultOptions.validate := None |}
    = Some (Normal this)
    ∧ (@get Sample.literal_engine Sample.registry this
            (Sample.env [("K2", "from-env")]) (str "K2")).1
      = Normal (str "v2").
Proof.
  apply (@Vault_new_get Sample.literal_engine Sample.fs Sample.registry
           Sample.path_join (str "/elsewhere")
           {| VaultOptions.envPath := Some (str "/work/.env");
              VaultOptions.throwOnMissing := None;
              VaultOptions.validate := None |}
           (Sample.env [("K2", "from-env")])
           (str "/work/.env") Sample.round_trip_file (str "K2") (str "v2"));
    try reflexivity; discriminate.
Defined.
